(** * The two-party translation relay of [index.js]

    A shallow embedding of the Express application: the voice resolver
    [getVoiceForLang], the two delivery queues [streamQueues], the
    [POST /interpret] handler with its three provider stages and the
    [GET /stream/:mode] handler, followed by the properties of the relay. *)

From Stdlib Require Import ZArith NArith Ascii String.
From Stdlib.Strings Require Import Byte.
From stdpp Require Import base option list strings gmap.

Local Open Scope string_scope.
Local Open Scope list_scope.

(** ** JavaScript values *)

Module JS.

(** A text field of the multipart form, as [multer] leaves it in
    [req.body]: absent ([undefined]), a string, or the array or
    null-prototype object that bracketed field names build.  Of the last
    kind the handlers only observe that it is truthy, that it is no string
    and what [ToPropertyKey] makes of it: [key] is [Some k] when the
    conversion gives [k] (an array of strings joined by commas) and [None]
    when it throws a [TypeError] (a null-prototype object). *)
Inductive field : Type :=
  | Undefined
  | Str (s : string)
  | Nested (key : option string).

(** [!v] is [negb (truthy v)]. *)
Definition truthy (v : field) : bool :=
  match v with
  | Undefined => false
  | Str s => negb (String.eqb s "")
  | Nested _ => true
  end.

(** [list.includes(v)] for a list of strings: SameValueZero against each
    element, which only a string can meet. *)
Definition includes (items : list string) (v : field) : bool :=
  match v with
  | Str s => existsb (String.eqb s) items
  | _ => false
  end.

(** [v === s] for a string literal [s]. *)
Definition strict_eq (v : field) (s : string) : bool :=
  match v with
  | Str t => String.eqb t s
  | _ => false
  end.

(** [ToPropertyKey(v)], the conversion the member access [obj[v]] applies;
    [None] is a thrown [TypeError]. *)
Definition to_property_key (v : field) : option string :=
  match v with
  | Undefined => Some "undefined"
  | Str s => Some s
  | Nested key => key
  end.

(** [s.split(sep)] for a one-character separator: the array always has an
    element 0, given first, followed by the other elements. *)
Fixpoint split (sep : ascii) (s : string) : string * list string :=
  match s with
  | EmptyString => (EmptyString, [])
  | String c rest =>
      let '(piece, pieces) := split sep rest in
      if Ascii.eqb c sep then (EmptyString, piece :: pieces)
      else (String c piece, pieces)
  end.

(** What reading a property of an object literal gives: [undefined], the
    string stored under an own key, or a member inherited from
    [Object.prototype] (a built-in function, or the prototype object itself
    for [__proto__]). *)
Inductive value : Type :=
  | VUndefined
  | VString (s : string)
  | VInherited (name : string).

(** The property names every object literal inherits from
    [Object.prototype]. *)
Definition object_prototype_names : list string :=
  [ "constructor"; "hasOwnProperty"; "isPrototypeOf"; "propertyIsEnumerable";
    "toLocaleString"; "toString"; "valueOf"; "__proto__";
    "__defineGetter__"; "__defineSetter__";
    "__lookupGetter__"; "__lookupSetter__" ].

(** An object literal with string values, as its own properties in source
    order. *)
Definition object_literal := list (string * string).

Fixpoint own_property (obj : object_literal) (key : string) : option string :=
  match obj with
  | [] => None
  | (k, v) :: rest => if String.eqb k key then Some v else own_property rest key
  end.

(** [obj[key]]: the own property, else the prototype chain. *)
Definition get (obj : object_literal) (key : string) : value :=
  match own_property obj key with
  | Some v => VString v
  | None =>
      if existsb (String.eqb key) object_prototype_names
      then VInherited key
      else VUndefined
  end.

(** [a || b] with a string literal on the right. *)
Definition or_else (a : value) (b : string) : value :=
  match a with
  | VUndefined => VString b
  | VString s => if String.eqb s "" then VString b else a
  | VInherited _ => a
  end.

(** The text a template literal substitutes for a value ([ToString]); a
    built-in function prints in the engine's NativeFunction form. *)
Definition to_string (v : value) : string :=
  match v with
  | VUndefined => "undefined"
  | VString s => s
  | VInherited name =>
      if String.eqb name "__proto__" then "[object Object]"
      else "function "
             +:+ (if String.eqb name "constructor" then "Object" else name)
             +:+ "() { [native code] }"
  end.

(** [Buffer.toString("base64")]. *)
Definition base64_alphabet : string :=
  "ABCDEFGHIJKLMNOPQRSTUVWXYZabcdefghijklmnopqrstuvwxyz0123456789+/".

Definition base64_digit (n : N) : ascii :=
  match String.get (N.to_nat n) base64_alphabet with
  | Some c => c
  | None => "="%char
  end.

Fixpoint base64 (bytes : list byte) : string :=
  match bytes with
  | [] => EmptyString
  | [a] =>
      let x := Byte.to_N a in
      String (base64_digit (x / 4))
        (String (base64_digit ((x mod 4) * 16)) "==")
  | [a; b] =>
      let x := Byte.to_N a in
      let y := Byte.to_N b in
      String (base64_digit (x / 4))
        (String (base64_digit ((x mod 4) * 16 + y / 16))
           (String (base64_digit ((y mod 16) * 4)) "="))
  | a :: b :: c :: rest =>
      let x := Byte.to_N a in
      let y := Byte.to_N b in
      let z := Byte.to_N c in
      String (base64_digit (x / 4))
        (String (base64_digit ((x mod 4) * 16 + y / 16))
           (String (base64_digit ((y mod 16) * 4 + z / 64))
              (String (base64_digit (z mod 64)) (base64 rest))))
  end%N.

End JS.

(** ** Compiled-in tables *)

(** Supported language codes mapped to display names. *)
Definition LANGUAGES : JS.object_literal :=
  [ ("en-US", "English"); ("fr-FR", "French"); ("tr-TR", "Turkish");
    ("es-ES", "Spanish"); ("pl-PL", "Polish"); ("it-IT", "Italian");
    ("pt-PT", "Portuguese"); ("cmn-CN", "Chinese"); ("ar-XA", "Arabic");
    ("de-DE", "German") ].

Definition femaleVoices : JS.object_literal :=
  [ ("en-US", "nova"); ("fr-FR", "onyx"); ("es-ES", "shimmer");
    ("de-DE", "echo") ].

(** [getVoiceForLang(lang)], on the property key of its argument:
    [femaleVoices[lang] || "nova"]. *)
Definition getVoiceForLang (lang : string) : JS.value :=
  JS.or_else (JS.get femaleVoices lang) "nova".

(** ** Shared state *)

(** The payload queued for the opposite user. *)
Record Payload : Type := {
  audioBase64 : string;
  text : string;
  timestamp : Z;
}.

(** [streamQueues]: [A] holds the messages for user A to receive (sent by
    B), [B] those for user B to receive (sent by A). *)
Record StreamQueues : Type := {
  A : list Payload;
  B : list Payload;
}.

(** What a handler can read or change between two suspensions: the queues,
    the paths present under [uploads/], and the value [Date.now()] reads. *)
Record World : Type := {
  streamQueues : StreamQueues;
  files : gset string;
  clock : Z;
}.

Definition initial (now : Z) : World :=
  {| streamQueues := {| A := []; B := [] |}; files := ∅; clock := now |}.

Definition with_queues (q : StreamQueues) (w : World) : World :=
  {| streamQueues := q; files := files w; clock := clock w |}.

Definition with_files (fs : gset string) (w : World) : World :=
  {| streamQueues := streamQueues w; files := fs; clock := clock w |}.

(** [fs.unlinkSync(path)]; [None] is the thrown ENOENT. *)
Definition unlinkSync (path : string) (w : World) : option World :=
  if decide (path ∈ files w)
  then Some (with_files (files w ∖ {[path]}) w)
  else None.

(** [fs.renameSync(oldPath, newPath)]; [None] is the thrown ENOENT. *)
Definition renameSync (oldPath newPath : string) (w : World) : option World :=
  if decide (oldPath ∈ files w)
  then Some (with_files ({[newPath]} ∪ (files w ∖ {[oldPath]})) w)
  else None.

(** ** Responses *)

Inductive Body : Type :=
  | ErrorJson (error : string)
  | InterpretJson (transcript interpretedText audioBase64 : string)
  | StreamJson (audioBase64 text : option string) (timestamp : option Z)
  | ErrorPage.

Record Response : Type := {
  status : nat;
  body : Body;
}.

(** [res.json(b)] *)
Definition json (b : Body) : Response := {| status := 200; body := b |}.

(** [res.status(code).json({ error })] *)
Definition status_json (code : nat) (error : string) : Response :=
  {| status := code; body := ErrorJson error |}.

(** The [catch] block of [POST /interpret]. *)
Definition failed : Response := status_json 500 "Failed to interpret.".

(** ** Provider calls and suspended handlers *)

(** The awaited calls of [POST /interpret], with the arguments the handler
    passes. *)
Inductive Call : Type :=
  | Transcription (file model language : string)
  | ChatCompletion (model content : string)
  | Speech (model : string) (voice : JS.value) (input : string)
  | ArrayBuffer.

(** What the handler reads off a fulfilled call: [transcription.text],
    [translationResult.choices[0].message.content], the response object of
    the speech call, the bytes of its body. *)
Definition answer (c : Call) : Type :=
  match c with
  | Transcription _ _ _ => string
  | ChatCompletion _ _ => string
  | Speech _ _ _ => unit
  | ArrayBuffer => list byte
  end.

(** How an awaited promise settles.  A rejection, like a reply off which
    the handler's read throws, lands in the [catch] block. *)
Inductive Settled (T : Type) : Type :=
  | Rejected
  | Fulfilled (v : T).
Arguments Rejected {T}.
Arguments Fulfilled {T} v.

(** An [async] handler run up to its next suspension: either it has
    responded, or it awaits a call and resumes, in the world it then finds,
    with the way the call settled. *)
Inductive Task : Type :=
  | Respond (res : Response) (w : World)
  | Await (c : Call) (w : World) (resume : Settled (answer c) → World → Task).

(** ** POST /interpret *)

(** The request as the handler receives it, once [upload.single("audio")]
    has passed the form on: [file] is [req.file.path] when the form carried
    the [audio] part, the other three are the fields destructured from
    [req.body].  A form that [multer] refuses never becomes a [Request]; see
    [upload_single] below. *)
Record Request : Type := {
  file : option string;
  sourceLang : JS.field;
  targetLang : JS.field;
  mode : JS.field;
}.

(** The disk storage of [multer({ dest: "uploads/" })]: the audio part is
    written under the path it reports before the handler runs. *)
Definition diskStorage (req : Request) (w : World) : World :=
  match file req with
  | Some path => with_files ({[path]} ∪ files w) w
  | None => w
  end.

(** Add to the other user's queue: [streamQueues.B.push] for mode A,
    [streamQueues.A.push] for mode B. *)
Definition enqueue (mode : JS.field) (streamPayload : Payload)
    (q : StreamQueues) : StreamQueues :=
  if JS.strict_eq mode "A" then
    {| A := A q; B := B q ++ [streamPayload] |}
  else if JS.strict_eq mode "B" then
    {| A := A q ++ [streamPayload]; B := B q |}
  else q.

(** The handler proper.  Every [None] of a file operation, every
    [TypeError] and every rejected call goes to the [catch] block, which
    answers [failed] in the world as it is by then. *)
Definition interpret (req : Request) (w : World) : Task :=
  match file req with
  | None => Respond (status_json 400 "No audio file uploaded.") w
  | Some audioPath =>
  if negb (JS.truthy (sourceLang req)) || negb (JS.truthy (targetLang req))
  then
    match unlinkSync audioPath w with
    | None => Respond failed w
    | Some w => Respond (status_json 400 "Missing sourceLang or targetLang.") w
    end
  else if negb (JS.includes ["A"; "B"] (mode req)) then
    match unlinkSync audioPath w with
    | None => Respond failed w
    | Some w => Respond (status_json 400 "Invalid mode value.") w
    end
  else
  let webmFilePath := audioPath +:+ ".webm" in
  match renameSync audioPath webmFilePath w with
  | None => Respond failed w
  | Some w =>
  match sourceLang req with
  | JS.Undefined | JS.Nested _ => Respond failed w
  | JS.Str lang =>
  let language := (JS.split "-" lang).1 in
  Await (Transcription webmFilePath "whisper-1" language) w
    (λ transcription w,
  match transcription with
  | Rejected => Respond failed w
  | Fulfilled transcript =>
  match JS.to_property_key (targetLang req) with
  | None => Respond failed w
  | Some target =>
  let translationPrompt :=
    "Translate this text to " +:+ JS.to_string (JS.get LANGUAGES target)
      +:+ ":" +:+ String "010" transcript in
  Await (ChatCompletion "gpt-4" translationPrompt) w
    (λ translationResult w,
  match translationResult with
  | Rejected => Respond failed w
  | Fulfilled interpretedText =>
  Await (Speech "tts-1" (getVoiceForLang target) interpretedText) w
    (λ mp3Response w,
  match mp3Response with
  | Rejected => Respond failed w
  | Fulfilled _ =>
  Await ArrayBuffer w
    (λ arrayBuffer w,
  match arrayBuffer with
  | Rejected => Respond failed w
  | Fulfilled audioBuffer =>
  let base64Audio := JS.base64 audioBuffer in
  let streamPayload :=
    {| audioBase64 := base64Audio;
       text := interpretedText;
       timestamp := clock w |} in
  let w := with_queues (enqueue (mode req) streamPayload (streamQueues w)) w in
  match unlinkSync webmFilePath w with
  | None => Respond failed w
  | Some w =>
      Respond (json (InterpretJson transcript interpretedText base64Audio)) w
  end
  end)
  end)
  end)
  end
  end)
  end
  end
  end.

(** The route for a form that the upload middleware passes on: the audio
    part stored, then the handler. *)
Definition post_interpret (req : Request) (w : World) : Task :=
  interpret req (diskStorage req w).

(** ** GET /stream/:mode *)

(** [streamQueues[mode]] for a mode that passed the [includes] test. *)
Definition queue_of (mode : string) (q : StreamQueues) : list Payload :=
  if String.eqb mode "A" then A q else B q.

(** The queues once [streamQueues[mode]] holds [items]. *)
Definition set_queue (mode : string) (items : list Payload)
    (q : StreamQueues) : StreamQueues :=
  if String.eqb mode "A" then {| A := items; B := B q |}
  else {| A := A q; B := items |}.

(** [res.json(audioItem)] *)
Definition item_json (audioItem : Payload) : Body :=
  StreamJson (Some (audioBase64 audioItem)) (Some (text audioItem))
    (Some (timestamp audioItem)).

(** The handler; [mode] is the path parameter [req.params.mode], always a
    string. *)
Definition stream (mode : string) (w : World) : Response * World :=
  if negb (JS.includes ["A"; "B"] (JS.Str mode)) then
    (status_json 400 "Invalid stream mode.", w)
  else
    let queue := queue_of mode (streamQueues w) in
    match queue with
    | [] => (json (StreamJson None None None), w)
    | audioItem :: queue =>
        (json (item_json audioItem),
         with_queues (set_queue mode queue (streamQueues w)) w)
    end.

(** ** Running a request against a provider *)

(** The capability provider and the network, as the way each call
    settles. *)
Record Provider : Type := {
  settle : ∀ c : Call, Settled (answer c);
}.

(** What a finished request leaves: the response, the world and the calls
    made, in order. *)
Record Outcome : Type := {
  response : Response;
  world : World;
  calls : list Call;
}.

(** One request run to its response with no other request in between. *)
Fixpoint run (P : Provider) (t : Task) : Outcome :=
  match t with
  | Respond res w => {| response := res; world := w; calls := [] |}
  | Await c w resume =>
      let o := run P (resume (settle P c) w) in
      {| response := response o; world := world o; calls := c :: calls o |}
  end.

(** ** The two slots, for stating the properties *)

Inductive Slot : Type := SlotA | SlotB.

#[global] Instance slot_eq_dec : EqDecision Slot.
Proof. solve_decision. Defined.

(** The value of [mode] that names a slot. *)
Definition slot_name (X : Slot) : string :=
  match X with SlotA => "A" | SlotB => "B" end.

Definition opposite (X : Slot) : Slot :=
  match X with SlotA => SlotB | SlotB => SlotA end.

(** The delivery queue of a slot. *)
Definition queue (X : Slot) (q : StreamQueues) : list Payload :=
  match X with SlotA => A q | SlotB => B q end.

(** The body of [GET /stream/:mode] on an empty queue. *)
Definition empty_json : Body := StreamJson None None None.

(** ** Validation, in one test *)

(** The guards of the handler, in one test. *)
Definition passes_validation (req : Request) : bool :=
  match file req with
  | None => false
  | Some _ =>
      JS.truthy (sourceLang req) && JS.truthy (targetLang req)
      && JS.includes ["A"; "B"] (mode req)
  end.

(** The world a rejected request leaves: the one it found, less the
    upload. *)
Definition without_upload (req : Request) (w : World) : World :=
  match file req with
  | Some path => with_files (files w ∖ {[path]}) w
  | None => w
  end.

(** ** The upload middleware and the route *)

(** A file part of a multipart form: the field it is sent under and the
    path the disk storage picks for it. *)
Record FilePart : Type := {
  fieldname : string;
  stored_as : string;
}.

(** A request to [POST /interpret] as [multer] reads it: the file parts
    that carry a file name, in order, up to a parse error if there is one (a
    text part over the limits of busboy, a truncated body), and the fields
    the text parts give [req.body].  A request that is not a multipart form
    has no file part and no parse error. *)
Record Form : Type := {
  file_parts : list FilePart;
  parse_error : bool;
  sent_sourceLang : JS.field;
  sent_targetLang : JS.field;
  sent_mode : JS.field;
}.

(** [req] with [req.file.path] as given and [req.body] from the form. *)
Definition request_of (form : Form) (stored : option string) : Request :=
  {| file := stored;
     sourceLang := sent_sourceLang form;
     targetLang := sent_targetLang form;
     mode := sent_mode form |}.

(** [upload.single("audio")]: one file part is expected, under the field
    [audio].  A file part under another field, or a second file part, makes
    [multer] end with the error LIMIT_UNEXPECTED_FILE, and a parse error with
    its own; [multer] then removes the file it has stored, if any, and calls
    [next(err)]: the left case, with the world it leaves.  Otherwise it
    calls [next()] with the request on the right. *)
Definition upload_single (form : Form) (w : World) : World + Request * World :=
  match file_parts form with
  | [] =>
      if parse_error form then inl w
      else inr (request_of form None, w)
  | part :: more =>
      if String.eqb (fieldname part) "audio" then
        let req := request_of form (Some (stored_as part)) in
        let stored := diskStorage req w in
        match more with
        | [] =>
            if parse_error form
            then inl (with_files (files stored ∖ {[stored_as part]}) stored)
            else inr (req, stored)
        | _ :: _ =>
            inl (with_files (files stored ∖ {[stored_as part]}) stored)
        end
      else inl w
  end.

(** The answer of Express's default error handler to an error that carries
    no status: 500 with its own page.  [index.js] registers no error
    middleware, so this is what [next(err)] leads to. *)
Definition error_page : Response := {| status := 500; body := ErrorPage |}.

(** The route [app.post("/interpret", upload.single("audio"), handler)]:
    the handler is entered only when the middleware passes the form on. *)
Definition route_interpret (form : Form) (w : World) : Task :=
  match upload_single form w with
  | inl w => Respond error_page w
  | inr (req, w) => interpret req w
  end.

(** Whether [upload.single("audio")] refuses the form. *)
Definition refuses (form : Form) : bool :=
  match file_parts form with
  | [] => parse_error form
  | part :: more =>
      negb (String.eqb (fieldname part) "audio")
      || match more with [] => parse_error form | _ :: _ => true end
  end.

(** The request the handler receives from a form that is not refused. *)
Definition handed (form : Form) : Request :=
  request_of form
    match file_parts form with
    | part :: _ => Some (stored_as part)
    | [] => None
    end.

(** ** Sequences of polls and of relay operations *)

(** [n] successive requests [GET /stream/mode]. *)
Fixpoint polls (mode : string) (n : nat) (w : World) : list Response * World :=
  match n with
  | O => ([], w)
  | S n =>
      let (res, w) := stream mode w in
      let (rest, w) := polls mode n w in
      (res :: rest, w)
  end.

(** The operations on the relay: the enqueue at the end of a submission
    sent with the mode of [sender], and a poll of slot [X]. *)
Inductive Op : Type :=
  | Submit (sender : Slot) (item : Payload)
  | Poll (X : Slot).

(** One operation: the poll answered, if it is one, and the world left. *)
Definition step (op : Op) (w : World) : list (Slot * Response) * World :=
  match op with
  | Submit sender item =>
      ([], with_queues
             (enqueue (JS.Str (slot_name sender)) item (streamQueues w)) w)
  | Poll X =>
      let (res, w) := stream (slot_name X) w in ([(X, res)], w)
  end.

(** A sequence of operations: the polls answered, in order, each with the
    slot polled, and the world left. *)
Fixpoint relay (ops : list Op) (w : World) : list (Slot * Response) * World :=
  match ops with
  | [] => ([], w)
  | op :: ops =>
      let (first, w) := step op w in
      let (then_, w) := relay ops w in
      (first ++ then_, w)
  end.

(** The items the operations enqueue for slot [X], in order. *)
Definition enqueued_for (X : Slot) (ops : list Op) : list Payload :=
  flat_map (λ op,
    match op with
    | Submit sender item => if decide (opposite sender = X) then [item] else []
    | Poll _ => []
    end) ops.

(** The item a poll's answer carries; the empty body and the error bodies
    carry none. *)
Definition carried (res : Response) : list Payload :=
  match body res with
  | StreamJson (Some audio) (Some words) (Some time) =>
      [{| audioBase64 := audio; text := words; timestamp := time |}]
  | _ => []
  end.

(** The items the polls of slot [X] were answered with, in order. *)
Definition delivered_to (X : Slot) (answers : list (Slot * Response)) : list Payload :=
  flat_map (λ answer, if decide (answer.1 = X) then carried answer.2 else [])
    answers.

(** ** The supported languages, and two providers to run against *)

(** The supported language codes: the own keys of [LANGUAGES]. *)
Definition supported (v : JS.field) : Prop :=
  ∃ code display, v = JS.Str code ∧ JS.own_property LANGUAGES code = Some display.

(** A provider that fulfils every call, and one whose speech call is
    rejected. *)
Definition fulfilling : Provider :=
  {| settle := fun c =>
       match c with
       | Transcription _ _ _ => Fulfilled "Good morning"
       | ChatCompletion _ _ => Fulfilled "Bonjour"
       | Speech _ _ _ => Fulfilled tt
       | ArrayBuffer => Fulfilled ["M"%byte; "a"%byte]
       end |}.

Definition speechless : Provider :=
  {| settle := fun c =>
       match c with
       | Transcription _ _ _ => Fulfilled "Good morning"
       | ChatCompletion _ _ => Fulfilled "Bonjour"
       | Speech _ _ _ => Rejected
       | ArrayBuffer => Fulfilled ["M"%byte; "a"%byte]
       end |}.

(** ** Interleaving, and submissions of a well-behaved client *)

(** One request run to its response while other handlers run at its
    suspensions: the first function of [meanwhile] is what they do to the
    world during the first suspension, and so on; once the list is
    exhausted nothing else runs. *)
Fixpoint run_among (P : Provider) (meanwhile : list (World → World))
    (t : Task) : Outcome :=
  match t with
  | Respond res w => {| response := res; world := w; calls := [] |}
  | Await c w resume =>
      let o := run_among P (tail meanwhile)
                 (resume (settle P c) (hd (λ w, w) meanwhile w)) in
      {| response := response o; world := world o; calls := c :: calls o |}
  end.

(** The request of a client that sends an audio part, stored by [multer]
    as [audioPath], two language codes and the mode of its slot. *)
Definition submission (audioPath lang target : string) (X : Slot) : Request :=
  {| file := Some audioPath;
     sourceLang := JS.Str lang;
     targetLang := JS.Str target;
     mode := JS.Str (slot_name X) |}.

(** The template literal [translationPrompt] of the handler. *)
Definition translationPrompt (target transcript : string) : string :=
  "Translate this text to " +:+ JS.to_string (JS.get LANGUAGES target)
    +:+ ":" +:+ String "010" transcript.

(** The world an accepted request leaves at its first suspension: the
    upload renamed to [audioPath.webm]. *)
Definition renamed (audioPath : string) (w : World) : World :=
  with_files ({[audioPath +:+ ".webm"]} ∪ (files w ∖ {[audioPath]})) w.


(** Whether a character occurs in a string. *)
Fixpoint occurs (c : ascii) (s : string) : bool :=
  match s with
  | EmptyString => false
  | String d rest => Ascii.eqb d c || occurs c rest
  end.

(** * Properties *)

(** ** The voice resolver *)

Section VoiceResolver.

Lemma get_not_inherited (obj : JS.object_literal) (key : string) :
  existsb (String.eqb key) JS.object_prototype_names = false →
  JS.get obj key =
    match JS.own_property obj key with
    | Some v => JS.VString v
    | None => JS.VUndefined
    end.
Proof.
  intros Hkey. unfold JS.get. rewrite Hkey. reflexivity.
Qed.

(** Away from the names of [Object.prototype] the resolver gives the table
    entry, else the default voice. *)
Lemma getVoiceForLang_own_or_default (lang : string) :
  existsb (String.eqb lang) JS.object_prototype_names = false →
  getVoiceForLang lang =
    match JS.own_property femaleVoices lang with
    | Some voice => JS.VString voice
    | None => JS.VString "nova"
    end.
Proof.
  intros Hkey. unfold getVoiceForLang. rewrite (get_not_inherited _ _ Hkey).
  cbn [JS.own_property femaleVoices].
  repeat (destruct (String.eqb _ lang); [reflexivity |]).
  reflexivity.
Qed.

(** C7, at [lang = "constructor"]: the string is no key of the voice table,
    yet the resolver does not return the default voice ["nova"]; the lookup
    finds the member [constructor] inherited from [Object.prototype], which
    is truthy, and returns that function instead of a voice identifier.
    The input reaches the resolver: a request with that [targetLang] passes
    validation, and the speech call is made with the function as voice. *)
Theorem getVoiceForLang_constructor :
  JS.own_property femaleVoices "constructor" = None
  ∧ getVoiceForLang "constructor" = JS.VInherited "constructor"
  ∧ getVoiceForLang "constructor" ≠ JS.VString "nova"
  ∧ let req := {| file := Some "uploads/9c1e"; sourceLang := JS.Str "en-US";
                  targetLang := JS.Str "constructor"; mode := JS.Str "A" |} in
    Speech "tts-1" (JS.VInherited "constructor") "Bonjour"
      ∈ calls (run fulfilling (post_interpret req (initial 0))).
Proof.
  split; [reflexivity |]. split; [reflexivity |]. split; [discriminate |].
  vm_compute. do 2 apply list_elem_of_further. apply list_elem_of_here.
Qed.

End VoiceResolver.

(** ** The relay: enqueue and poll *)

Section Relay.

Implicit Types (X : Slot) (q : StreamQueues) (w : World) (item : Payload).

Lemma queue_with_queues X q w :
  queue X (streamQueues (with_queues q w)) = queue X q.
Proof. reflexivity. Qed.

Lemma includes_slot_name X :
  JS.includes ["A"; "B"] (JS.Str (slot_name X)) = true.
Proof. destruct X; reflexivity. Qed.

Lemma queue_of_slot X q : queue_of (slot_name X) q = queue X q.
Proof. destruct X; reflexivity. Qed.

Lemma queue_set_queue X items q :
  queue X (set_queue (slot_name X) items q) = items.
Proof. destruct X; reflexivity. Qed.

Lemma queue_set_queue_opposite X items q :
  queue (opposite X) (set_queue (slot_name X) items q) = queue (opposite X) q.
Proof. destruct X; reflexivity. Qed.

(** A submission of sender [X] lands at the end of the opposite queue. *)
Lemma enqueue_recipient X item q :
  queue (opposite X) (enqueue (JS.Str (slot_name X)) item q)
  = queue (opposite X) q ++ [item].
Proof. destruct X; reflexivity. Qed.

Lemma enqueue_sender X item q :
  queue X (enqueue (JS.Str (slot_name X)) item q) = queue X q.
Proof. destruct X; reflexivity. Qed.

(** C3: an enqueue whose recipient is slot [X], that of a submission sent
    with the mode of the opposite slot, appends the item to the queue of [X]
    and leaves the queue of the other slot as it was; with [X] either slot
    this is both directions. *)
Theorem enqueue_slot_isolation X item q :
  let q' := enqueue (JS.Str (slot_name (opposite X))) item q in
  queue (opposite X) q' = queue (opposite X) q
  ∧ queue X q' = queue X q ++ [item].
Proof. destruct X; split; reflexivity. Qed.

(** What a poll of an empty queue does. *)
Lemma stream_nothing X w :
  queue X (streamQueues w) = [] →
  stream (slot_name X) w = (json empty_json, w).
Proof.
  intros Hempty. unfold stream.
  rewrite includes_slot_name, queue_of_slot, Hempty. reflexivity.
Qed.

(** C8: a poll of slot A or B whose queue is empty answers 200 with the
    body [{audioBase64: null, text: null, timestamp: null}] and leaves the
    world, so both queues, as it was. *)
Theorem stream_empty_queue X w :
  queue X (streamQueues w) = [] →
  stream (slot_name X) w
  = ({| status := 200; body := StreamJson None None None |}, w).
Proof.
  intros Hempty. unfold stream, json.
  destruct X; cbn in Hempty |- *; rewrite Hempty; reflexivity.
Qed.

Lemma stream_empty_queue_witness :
  queue SlotB (streamQueues (initial 0)) = []
  ∧ stream "B" (initial 0)
    = ({| status := 200; body := StreamJson None None None |}, initial 0).
Proof.
  split; [reflexivity |].
  apply (stream_empty_queue SlotB (initial 0)). reflexivity.
Defined.

(** What a poll of a non-empty queue does. *)
Lemma stream_shift X w item rest :
  queue X (streamQueues w) = item :: rest →
  stream (slot_name X) w
  = (json (item_json item),
     with_queues (set_queue (slot_name X) rest (streamQueues w)) w).
Proof.
  intros Hq. unfold stream.
  rewrite includes_slot_name, queue_of_slot, Hq. reflexivity.
Qed.

Lemma stream_opposite_queue X w :
  queue (opposite X) (streamQueues (stream (slot_name X) w).2)
  = queue (opposite X) (streamQueues w).
Proof.
  destruct (queue X (streamQueues w)) as [| item rest] eqn:Hq.
  - rewrite (stream_nothing _ _ Hq). reflexivity.
  - rewrite (stream_shift _ _ _ _ Hq). cbn [snd].
    rewrite queue_with_queues. apply queue_set_queue_opposite.
Qed.

(** C10: a poll of slot [X] leaves the queue of the other slot unchanged;
    when the queue of [X] is [item :: rest] the poll answers [item], the
    queue of [X] becomes [rest] (the remaining items in their order) and is
    one item shorter.  To answer [item] is to answer 200 with its three
    fields, [{audioBase64, text, timestamp}]. *)
Theorem stream_removes_oldest X w :
  let (res, w') := stream (slot_name X) w in
  queue (opposite X) (streamQueues w') = queue (opposite X) (streamQueues w)
  ∧ ∀ item rest,
      queue X (streamQueues w) = item :: rest →
      res = {| status := 200;
               body := StreamJson (Some (audioBase64 item)) (Some (text item))
                         (Some (timestamp item)) |}
      ∧ queue X (streamQueues w') = rest
      ∧ S (length (queue X (streamQueues w')))
        = length (queue X (streamQueues w)).
Proof.
  pose proof (stream_opposite_queue X w) as Hother.
  destruct (stream (slot_name X) w) as [res w'] eqn:Hrun.
  split; [exact Hother |]. intros item rest Hq.
  rewrite (stream_shift _ _ _ _ Hq) in Hrun. injection Hrun as <- <-.
  rewrite queue_with_queues, queue_set_queue, Hq. repeat split.
Qed.

Lemma stream_removes_oldest_witness :
  let first := {| audioBase64 := "TQ=="; text := "Bonjour"; timestamp := 7 |} in
  let second := {| audioBase64 := "TWE="; text := "Merci"; timestamp := 9 |} in
  let w := with_queues {| A := [first; second]; B := [second] |} (initial 0) in
  queue SlotA (streamQueues w) = [first; second]
  ∧ (stream "A" w).1
    = {| status := 200;
         body := StreamJson (Some "TQ==") (Some "Bonjour") (Some 7%Z) |}
  ∧ streamQueues (stream "A" w).2 = {| A := [second]; B := [second] |}.
Proof.
  intros first second w. split; [reflexivity |].
  pose proof (stream_removes_oldest SlotA w) as H.
  destruct (stream (slot_name SlotA) w) as [res w'] eqn:Hrun.
  destruct H as (HB & H).
  destruct (H first [second] eq_refl) as (Hres & HA & _).
  change (stream "A" w) with (stream (slot_name SlotA) w). rewrite Hrun.
  split; [exact Hres |].
  cbn [snd]. destruct (streamQueues w') as [qa qb].
  cbn in HA, HB. rewrite HA, HB. reflexivity.
Defined.

End Relay.

(** ** POST /interpret: validation and the provider pipeline *)

Section Interpret.

Implicit Types (P : Provider) (req : Request) (w : World).

Lemma unlinkSync_present path w :
  path ∈ files w →
  unlinkSync path w = Some (with_files (files w ∖ {[path]}) w).
Proof.
  intros Hin. unfold unlinkSync. destruct (decide (path ∈ files w)); done.
Qed.

Lemma renameSync_present oldPath newPath w :
  oldPath ∈ files w →
  renameSync oldPath newPath w
  = Some (with_files ({[newPath]} ∪ (files w ∖ {[oldPath]})) w).
Proof.
  intros Hin. unfold renameSync. destruct (decide (oldPath ∈ files w)); done.
Qed.

Lemma uploaded_present req w path :
  file req = Some path → path ∈ files (diskStorage req w).
Proof.
  intros Hfile. unfold diskStorage. rewrite Hfile. cbn.
  apply elem_of_union_l, elem_of_singleton. reflexivity.
Qed.

Lemma diskStorage_queues req w :
  streamQueues (diskStorage req w) = streamQueues w.
Proof. unfold diskStorage. destruct (file req); reflexivity. Qed.

Lemma includes_modes (v : JS.field) :
  JS.includes ["A"; "B"] v = true ↔ v = JS.Str "A" ∨ v = JS.Str "B".
Proof.
  destruct v as [| s | k]; cbn [JS.includes existsb];
    try (split; [discriminate | intros [|]; discriminate]).
  rewrite orb_false_r, orb_true_iff, !String.eqb_eq.
  split; (intros [Hs | Hs]; [left | right]; congruence).
Qed.

Lemma stored_then_unlinked (path : string) (present : gset string) :
  ({[path]} ∪ present) ∖ {[path]} = present ∖ {[path]}.
Proof.
  apply set_eq. intros x.
  rewrite !elem_of_difference, elem_of_union, elem_of_singleton. tauto.
Qed.

(** A request that fails a guard is answered 400 at once: the task is a
    [Respond], with no call awaited. *)
Lemma post_interpret_rejected req w :
  passes_validation req = false →
  ∃ message,
    post_interpret req w
    = Respond (status_json 400 message) (without_upload req w).
Proof.
  unfold passes_validation, post_interpret, interpret, without_upload.
  intros Hguard. pose proof (uploaded_present req w) as Hup.
  unfold diskStorage in *.
  destruct (file req) as [audioPath |]; [| eauto].
  specialize (Hup audioPath eq_refl).
  rewrite (unlinkSync_present _ _ Hup).
  unfold with_files in *. cbn [files streamQueues clock].
  rewrite stored_then_unlinked.
  destruct (JS.truthy (sourceLang req)), (JS.truthy (targetLang req));
    cbn in Hguard |- *; try rewrite Hguard; cbn; eauto.
Qed.

Lemma without_upload_queues req w :
  streamQueues (without_upload req w) = streamQueues w.
Proof. unfold without_upload. destruct (file req); reflexivity. Qed.

(** Every outcome of a request run on its own. *)
Lemma run_post_interpret P req w :
  let o := run P (post_interpret req w) in
  (passes_validation req = false
   ∧ status (response o) = 400 ∧ calls o = []
   ∧ streamQueues (world o) = streamQueues w)
  ∨ (passes_validation req = true
     ∧ response o = failed
     ∧ streamQueues (world o) = streamQueues w)
  ∨ (passes_validation req = true
     ∧ (∀ c, c ∈ calls o → settle P c ≠ Rejected)
     ∧ ∃ transcript item,
         response o
         = json (InterpretJson transcript (text item) (audioBase64 item))
         ∧ streamQueues (world o)
           = enqueue (mode req) item (streamQueues w)).
Proof.
  destruct (passes_validation req) eqn:Hguard.
  - right. revert Hguard.
    unfold passes_validation, post_interpret, interpret.
    pose proof (uploaded_present req w) as Hup.
    pose proof (diskStorage_queues req w) as Hq.
    destruct (file req) as [audioPath |]; [| discriminate].
    specialize (Hup audioPath eq_refl).
    intros Hguard. apply andb_prop in Hguard as [Hguard Hmode].
    apply andb_prop in Hguard as [Hsrc Htgt].
    rewrite Hsrc, Htgt, Hmode. cbn [negb orb].
    rewrite (renameSync_present _ _ _ Hup).
    destruct (sourceLang req) as [| lang | key]; [discriminate | | left; cbn; auto].
    cbn [run]. destruct (settle P (Transcription _ _ _)) as [| transcript] eqn:E1;
      [left; cbn; auto |].
    destruct (JS.to_property_key (targetLang req)) as [target |];
      [| left; cbn; auto].
    cbn [run]. destruct (settle P (ChatCompletion _ _)) as [| interpretedText] eqn:E2;
      [left; cbn; auto |].
    cbn [run]. destruct (settle P (Speech _ _ _)) as [| mp3] eqn:E3;
      [left; cbn; auto |].
    cbn [run]. destruct (settle P ArrayBuffer) as [| audioBuffer] eqn:E4;
      [left; cbn; auto |].
    rewrite unlinkSync_present
      by (cbn; apply elem_of_union_l, elem_of_singleton; reflexivity).
    right. cbn. split; [reflexivity |]. split.
    + intros c Hc. repeat (apply elem_of_cons in Hc as [-> | Hc]);
        [congruence .. |]. by apply elem_of_nil in Hc.
    + eexists transcript, {| audioBase64 := _; text := _; timestamp := _ |}.
      cbn. split; [reflexivity |]. rewrite Hq. reflexivity.
  - left. destruct (post_interpret_rejected req w Hguard) as (message & ->).
    cbn. rewrite without_upload_queues. auto.
Qed.




Lemma rejected_outcome P req w :
  passes_validation req = false →
  let o := run P (post_interpret req w) in
  status (response o) = 400
  ∧ calls o = []
  ∧ world o = without_upload req w.
Proof.
  intros Hguard.
  destruct (post_interpret_rejected req w Hguard) as (message & ->).
  cbn. auto.
Qed.

(** *** The route: forms that [multer] refuses, forms that it passes on *)

Lemma route_passed form w :
  refuses form = false →
  route_interpret form w = post_interpret (handed form) w.
Proof.
  unfold refuses, route_interpret, upload_single, post_interpret, handed.
  destruct (file_parts form) as [| part [| next_ more]].
  - intros ->. reflexivity.
  - destruct (fieldname part =? "audio")%string; [| discriminate].
    cbn [negb orb]. intros ->. reflexivity.
  - destruct (fieldname part =? "audio")%string; discriminate.
Qed.

Lemma stored_then_removed (path : string) w :
  path ∉ files w →
  with_files (({[path]} ∪ files w) ∖ {[path]}) w = w.
Proof.
  intros Hfresh. rewrite stored_then_unlinked.
  assert (files w ∖ {[path]} = files w) as Hfiles.
  { apply set_eq. intros x. rewrite elem_of_difference, elem_of_singleton.
    split; [tauto |]. intros Hx. split; [exact Hx |]. intros ->. contradiction. }
  destruct w as [q present now]. unfold with_files. cbn in Hfiles |- *.
  rewrite Hfiles. reflexivity.
Qed.

(** A refused form is answered by Express, not by the handler: its error
    page, no call, the queues and the clock as they were, and of the files
    only the form's own audio part stored and removed again. *)
Lemma route_refused P form w :
  refuses form = true →
  let o := run P (route_interpret form w) in
  response o = error_page
  ∧ calls o = []
  ∧ streamQueues (world o) = streamQueues w
  ∧ clock (world o) = clock w
  ∧ ((∀ part, part ∈ file_parts form → stored_as part ∉ files w) →
     world o = w).
Proof.
  unfold refuses, route_interpret, upload_single.
  destruct (file_parts form) as [| part more] eqn:Hparts.
  - intros ->. cbn. auto.
  - destruct (fieldname part =? "audio")%string; cbn [negb orb].
    + intros Hmore.
      assert (∀ rest : World + Request * World,
                (match more with
                 | [] => if parse_error form
                         then inl (with_files
                                     (files (diskStorage
                                               (request_of form (Some (stored_as part))) w)
                                      ∖ {[stored_as part]})
                                     (diskStorage
                                        (request_of form (Some (stored_as part))) w))
                         else rest
                 | _ :: _ =>
                     inl (with_files
                            (files (diskStorage
                                      (request_of form (Some (stored_as part))) w)
                             ∖ {[stored_as part]})
                            (diskStorage
                               (request_of form (Some (stored_as part))) w))
                 end)
                = inl (with_files (({[stored_as part]} ∪ files w)
                                   ∖ {[stored_as part]}) w)) as Hleft.
      { intros rest. destruct more; [rewrite Hmore |]; reflexivity. }
      cbv zeta. rewrite Hleft. cbn.
      repeat (split; [reflexivity |]).
      intros Hfresh. apply stored_then_removed, Hfresh, list_elem_of_here.
    + intros _. cbn. auto.
Qed.










(** C9 as stated fails: a request whose [sourceLang] and [targetLang] are
    ["xx-XX"] and ["yy-YY"], neither a key of [LANGUAGES], is not rejected
    with 400; with a provider that fulfils every call it is answered 200. *)
Lemma unsupported_language_accepted :
  let req := {| file := Some "uploads/9c1e"; sourceLang := JS.Str "xx-XX";
                targetLang := JS.Str "yy-YY"; mode := JS.Str "A" |} in
  status (response (run fulfilling (post_interpret req (initial 0)))) = 200
  ∧ ¬ supported (sourceLang req)
  ∧ ¬ supported (targetLang req).
Proof.
  intros req. split; [vm_compute; reflexivity |].
  split; intros (code & display & Hcode & Hown); injection Hcode as <-;
    vm_compute in Hown; discriminate.
Qed.

(** C9, amended: a [sourceLang] and a [targetLang] that [POST /interpret]
    accepts, in a form that [upload.single("audio")] passes on to the
    handler and that the handler does not reject with 400, are present and
    non-empty (truthy); nothing more is asked of them, membership in the
    supported set least of all. *)
Theorem accepted_languages_truthy P form w :
  refuses form = false →
  status (response (run P (route_interpret form w))) ≠ 400 →
  JS.truthy (sent_sourceLang form) = true
  ∧ JS.truthy (sent_targetLang form) = true.
Proof.
  intros Hrefuses Hstatus. rewrite (route_passed form w Hrefuses) in Hstatus.
  destruct (passes_validation (handed form)) eqn:Hguard.
  - unfold passes_validation in Hguard.
    destruct (file (handed form)); [| discriminate].
    apply andb_prop in Hguard as [Hguard _].
    apply andb_prop in Hguard. exact Hguard.
  - destruct (rejected_outcome P (handed form) w Hguard) as (H400 & _).
    contradiction.
Qed.

Lemma accepted_languages_truthy_witness :
  let form := {| file_parts := [{| fieldname := "audio";
                                   stored_as := "uploads/9c1e" |}];
                 parse_error := false;
                 sent_sourceLang := JS.Str "xx-XX";
                 sent_targetLang := JS.Str "yy-YY";
                 sent_mode := JS.Str "B" |} in
  status (response (run fulfilling (route_interpret form (initial 0)))) = 200
  ∧ JS.truthy (sent_sourceLang form) = true
  ∧ JS.truthy (sent_targetLang form) = true.
Proof.
  intros form. split; [vm_compute; reflexivity |].
  apply (accepted_languages_truthy fulfilling form (initial 0));
    [reflexivity | vm_compute; discriminate].
Defined.

End Interpret.

(** ** Delivery: what polls observe *)

Section Delivery.

Implicit Types (X Y : Slot) (w : World) (item : Payload).

(** The answers of successive polls of a slot are read off its queue: the
    queued items in order, then the empty body. *)
Lemma polls_responses X n w :
  (polls (slot_name X) n w).1
  = map (λ item, json (item_json item)) (take n (queue X (streamQueues w)))
    ++ replicate (n - length (queue X (streamQueues w))) (json empty_json).
Proof.
  revert w. induction n as [| n IH]; intros w; [reflexivity |].
  cbn [polls].
  destruct (queue X (streamQueues w)) as [| item rest] eqn:Hq.
  - rewrite (stream_nothing _ _ Hq).
    specialize (IH w). rewrite Hq in IH.
    destruct (polls (slot_name X) n w) as [answers w'].
    cbn in IH |- *. rewrite IH. rewrite take_nil, Nat.sub_0_r. reflexivity.
  - rewrite (stream_shift _ _ _ _ Hq).
    specialize (IH (with_queues
                      (set_queue (slot_name X) rest (streamQueues w)) w)).
    rewrite queue_with_queues, queue_set_queue in IH.
    destruct (polls (slot_name X) n _) as [answers w'].
    cbn in IH |- *. rewrite IH. reflexivity.
Qed.

(** C2: when a submission with the mode of slot [X] is answered 200, the
    response carries a transcript with the interpreted text and audio of an
    item that is appended to the queue of the opposite slot, and the queue
    of [X] is untouched; any number of polls of [X] is answered as if there
    had been no submission, and polls of the opposite slot, once they have
    drained what was queued before, are answered 200 with the three fields
    of the item.  With [X] slot A this is mode ["A"] seen through
    [GET /stream/B] only, with [X] slot B the converse. *)
Theorem submission_reaches_opposite_slot P req w X :
  mode req = JS.Str (slot_name X) →
  let o := run P (post_interpret req w) in
  status (response o) = 200 →
  ∃ transcript item,
    response o
    = {| status := 200;
         body := InterpretJson transcript (text item) (audioBase64 item) |}
    ∧ queue (opposite X) (streamQueues (world o))
      = queue (opposite X) (streamQueues w) ++ [item]
    ∧ queue X (streamQueues (world o)) = queue X (streamQueues w)
    ∧ (∀ n, (polls (slot_name X) n (world o)).1 = (polls (slot_name X) n w).1)
    ∧ (polls (slot_name (opposite X))
         (S (length (queue (opposite X) (streamQueues w)))) (world o)).1
      = (polls (slot_name (opposite X))
           (length (queue (opposite X) (streamQueues w))) w).1
        ++ [{| status := 200;
               body := StreamJson (Some (audioBase64 item)) (Some (text item))
                         (Some (timestamp item)) |}].
Proof.
  intros Hmode o Hstatus. subst o.
  destruct (run_post_interpret P req w)
    as [(_ & H400 & _) | [(_ & Hres & _) | (_ & _ & transcript & item & Hres & Hq)]].
  - rewrite H400 in Hstatus. discriminate.
  - rewrite Hres in Hstatus. discriminate.
  - exists transcript, item. rewrite Hmode in Hq.
    assert (queue (opposite X) (streamQueues (world (run P (post_interpret req w))))
            = queue (opposite X) (streamQueues w) ++ [item]) as Hrecipient
      by (rewrite Hq; apply enqueue_recipient).
    assert (queue X (streamQueues (world (run P (post_interpret req w))))
            = queue X (streamQueues w)) as Hsender
      by (rewrite Hq; apply enqueue_sender).
    split; [exact Hres |]. split; [exact Hrecipient |].
    split; [exact Hsender |]. split.
    + intros n. rewrite !polls_responses, Hsender. reflexivity.
    + rewrite !polls_responses, Hrecipient.
      rewrite length_app. cbn [length].
      replace (S (length (queue (opposite X) (streamQueues w)))
               - (length (queue (opposite X) (streamQueues w)) + 1))
        with 0 by lia.
      rewrite Nat.sub_diag. cbn [replicate]. rewrite !app_nil_r.
      rewrite take_ge by (rewrite length_app; cbn; lia).
      rewrite take_ge by lia.
      rewrite map_app. reflexivity.
Qed.

Lemma submission_reaches_opposite_slot_witness :
  let req := {| file := Some "uploads/9c1e"; sourceLang := JS.Str "en-US";
                targetLang := JS.Str "fr-FR"; mode := JS.Str "A" |} in
  let o := run fulfilling (post_interpret req (initial 5)) in
  let nothing := {| status := 200; body := StreamJson None None None |} in
  status (response o) = 200
  ∧ (polls "B" 2 (world o)).1
    = [{| status := 200;
          body := StreamJson (Some "TWE=") (Some "Bonjour") (Some 5%Z) |};
       nothing]
  ∧ (polls "A" 2 (world o)).1 = [nothing; nothing]
  ∧ ∃ transcript item,
      response o
      = {| status := 200;
           body := InterpretJson transcript (text item) (audioBase64 item) |}
      ∧ queue SlotB (streamQueues (world o)) = [item]
      ∧ queue SlotA (streamQueues (world o)) = [].
Proof.
  intros req o nothing.
  split; [vm_compute; reflexivity |].
  split; [vm_compute; reflexivity |].
  split; [vm_compute; reflexivity |].
  destruct (submission_reaches_opposite_slot fulfilling req (initial 5) SlotA)
    as (transcript & item' & Hres & HB & HA & _);
    [reflexivity | vm_compute; reflexivity |].
  exists transcript, item'. auto.
Defined.

End Delivery.

(** ** First in, first out *)

Section Fifo.

Implicit Types (X Y : Slot) (w : World) (item : Payload).

Lemma carried_item item : carried (json (item_json item)) = [item].
Proof. destruct item. reflexivity. Qed.

Lemma ne_opposite X Y : Y ≠ X → X = opposite Y.
Proof. destruct X, Y; intros Hne; try reflexivity; destruct Hne; reflexivity. Qed.

(** One operation keeps the account of slot [X]: what was queued and what
    the operation enqueues is what it delivers and what stays queued. *)
Lemma step_account X op w :
  queue X (streamQueues w) ++ enqueued_for X [op]
  = delivered_to X (step op w).1 ++ queue X (streamQueues (step op w).2).
Proof.
  destruct op as [sender item | Y]; cbn [step enqueued_for flat_map].
  - cbn [fst snd delivered_to flat_map]. rewrite queue_with_queues, app_nil_r.
    destruct (decide (opposite sender = X)) as [<- | Hne].
    + rewrite enqueue_recipient. reflexivity.
    + assert (X = sender) as ->
        by (destruct X, sender; try reflexivity; destruct Hne; reflexivity).
      rewrite enqueue_sender, app_nil_r. reflexivity.
  - rewrite app_nil_r.
    destruct (decide (Y = X)) as [-> | Hne].
    + destruct (queue X (streamQueues w)) as [| item rest] eqn:Hq.
      * rewrite (stream_nothing _ _ Hq). cbn.
        destruct (decide (X = X)); [| congruence]. cbn. symmetry. exact Hq.
      * rewrite (stream_shift _ _ _ _ Hq). cbn [fst snd delivered_to flat_map].
        destruct (decide (X = X)); [| congruence].
        rewrite carried_item, queue_with_queues, queue_set_queue. reflexivity.
    + pose proof (stream_opposite_queue Y w) as Hother.
      rewrite <- (ne_opposite _ _ Hne) in Hother.
      destruct (stream (slot_name Y) w) as [res w']. cbn in Hother |- *.
      destruct (decide (Y = X)); [congruence |]. cbn. symmetry. exact Hother.
Qed.

Lemma delivered_to_app X (first then_ : list (Slot * Response)) :
  delivered_to X (first ++ then_) = delivered_to X first ++ delivered_to X then_.
Proof. unfold delivered_to. apply flat_map_app. Qed.

Lemma enqueued_for_cons X op ops :
  enqueued_for X (op :: ops) = enqueued_for X [op] ++ enqueued_for X ops.
Proof. unfold enqueued_for. cbn [flat_map]. rewrite app_nil_r. reflexivity. Qed.

Lemma relay_account X ops w :
  queue X (streamQueues w) ++ enqueued_for X ops
  = delivered_to X (relay ops w).1 ++ queue X (streamQueues (relay ops w).2).
Proof.
  revert w. induction ops as [| op ops IH]; intros w.
  - cbn. rewrite app_nil_r. reflexivity.
  - rewrite enqueued_for_cons.
    pose proof (step_account X op w) as Hstep.
    cbn [relay]. destruct (step op w) as [first w1]. cbn [fst snd] in Hstep.
    specialize (IH w1). destruct (relay ops w1) as [then_ w2].
    cbn [fst snd] in IH |- *.
    rewrite delivered_to_app, app_assoc, Hstep, <- !app_assoc, IH.
    reflexivity.
Qed.

(** A poll answers the empty body exactly when the queue is empty. *)
Lemma stream_empty_iff X w :
  (stream (slot_name X) w).1 = json empty_json
  ↔ queue X (streamQueues w) = [].
Proof.
  split.
  - destruct (queue X (streamQueues w)) as [| item rest] eqn:Hq; [reflexivity |].
    rewrite (stream_shift _ _ _ _ Hq). discriminate.
  - intros Hq. rewrite (stream_nothing _ _ Hq). reflexivity.
Qed.

(** C1: run any sequence of enqueues and polls from any world, and look at
    one slot [X].  The items its polls were answered with, followed by the
    items still queued for it, are the items queued at the start followed
    by those enqueued for it, in that order: polls deliver in the order of
    enqueueing, none lost, repeated or overtaken.  A poll of [X] made next
    answers the empty body exactly when everything queued or enqueued for
    [X] has been delivered, and answers the oldest undelivered item
    otherwise. *)
Theorem relay_fifo X ops w :
  let (answers, w') := relay ops w in
  queue X (streamQueues w) ++ enqueued_for X ops
  = delivered_to X answers ++ queue X (streamQueues w')
  ∧ ((stream (slot_name X) w').1 = json empty_json
     ↔ delivered_to X answers = queue X (streamQueues w) ++ enqueued_for X ops)
  ∧ (∀ item rest,
       queue X (streamQueues w) ++ enqueued_for X ops
       = delivered_to X answers ++ item :: rest →
       (stream (slot_name X) w').1 = json (item_json item)).
Proof.
  pose proof (relay_account X ops w) as Haccount.
  destruct (relay ops w) as [answers w']. cbn [fst snd] in Haccount.
  split; [exact Haccount |]. split.
  - rewrite stream_empty_iff, Haccount. split.
    + intros ->. rewrite app_nil_r. reflexivity.
    + intros Hall. rewrite <- (app_nil_r (delivered_to X answers)) in Hall at 1.
      apply app_inv_head in Hall. symmetry. exact Hall.
  - intros item rest Hnext. rewrite Haccount in Hnext.
    apply app_inv_head in Hnext.
    rewrite (stream_shift _ _ _ _ Hnext). reflexivity.
Qed.

Lemma relay_fifo_witness :
  let first := {| audioBase64 := "TQ=="; text := "Bonjour"; timestamp := 7 |} in
  let second := {| audioBase64 := "TWE="; text := "Merci"; timestamp := 3 |} in
  let ops := [Poll SlotB; Submit SlotA first; Submit SlotB second;
              Submit SlotA second; Poll SlotB; Poll SlotA] in
  (relay ops (initial 0)).1
  = [(SlotB, json empty_json); (SlotB, json (item_json first));
     (SlotA, json (item_json second))]
  ∧ enqueued_for SlotB ops = [first; second]
  ∧ delivered_to SlotB (relay ops (initial 0)).1 = [first]
  ∧ (stream "B" (relay ops (initial 0)).2).1 = json (item_json second).
Proof.
  intros first second ops.
  split; [vm_compute; reflexivity |].
  split; [vm_compute; reflexivity |].
  split; [vm_compute; reflexivity |].
  pose proof (relay_fifo SlotB ops (initial 0)) as Hfifo.
  destruct (relay ops (initial 0)) as [answers w'] eqn:Hrun.
  destruct Hfifo as (Haccount & _ & Hnext).
  apply (Hnext second []).
  assert (answers = (relay ops (initial 0)).1) as -> by (rewrite Hrun; reflexivity).
  vm_compute. reflexivity.
Defined.

End Fifo.

(** ** The whole pipeline *)

Section Pipeline.

Implicit Types (P : Provider) (req : Request) (w : World) (X : Slot).

Lemma truthy_nonempty (s : string) : s ≠ "" → JS.truthy (JS.Str s) = true.
Proof.
  intros Hs. cbn. destruct (String.eqb_spec s ""); [contradiction | reflexivity].
Qed.

Lemma renameSync_uploaded req w audioPath :
  file req = Some audioPath →
  renameSync audioPath (audioPath +:+ ".webm") (diskStorage req w)
  = Some (renamed audioPath w).
Proof.
  intros Hfile. rewrite (renameSync_present _ _ _ (uploaded_present _ _ _ Hfile)).
  unfold diskStorage, renamed, with_files. rewrite Hfile.
  cbn [files streamQueues clock]. rewrite stored_then_unlinked. reflexivity.
Qed.

Lemma run_among_nil P (t : Task) : run_among P [] t = run P t.
Proof.
  induction t as [res w | c w resume IH]; [reflexivity |].
  cbn. rewrite IH. reflexivity.
Qed.

Lemma run_among_idle P (meanwhile : list (World → World)) (t : Task) :
  run_among P (meanwhile ++ [λ w, w]) t = run_among P meanwhile t.
Proof.
  revert meanwhile. induction t as [res w | c w resume IH]; intros meanwhile;
    [reflexivity |].
  destruct meanwhile as [| f rest]; cbn.
  - rewrite run_among_nil. rewrite <- (run_among_nil P (resume _ _)).
    reflexivity.
  - rewrite IH. reflexivity.
Qed.

(** A submission all of whose four calls are fulfilled. *)
Section Fulfilled.

Context (P : Provider) (audioPath lang target : string) (X : Slot).
Context (transcript interpretedText : string) (audioBuffer : list byte).

Local Abbreviation webm := (audioPath +:+ ".webm").
Local Abbreviation req := (submission audioPath lang target X).
Local Abbreviation transcription :=
  (Transcription webm "whisper-1" (JS.split "-" lang).1).
Local Abbreviation completion :=
  (ChatCompletion "gpt-4" (translationPrompt target transcript)).
Local Abbreviation speech :=
  (Speech "tts-1" (getVoiceForLang target) interpretedText).
Local Abbreviation payload now :=
  {| audioBase64 := JS.base64 audioBuffer;
     text := interpretedText;
     timestamp := now |}.
Local Abbreviation reply :=
  (json (InterpretJson transcript interpretedText (JS.base64 audioBuffer))).

Hypothesis Hlang : lang ≠ "".
Hypothesis Htarget : target ≠ "".
Hypothesis Htranscription : settle P transcription = Fulfilled transcript.
Hypothesis Hcompletion : settle P completion = Fulfilled interpretedText.
Hypothesis Hspeech : settle P speech = Fulfilled tt.
Hypothesis Hbody : settle P ArrayBuffer = Fulfilled audioBuffer.

Lemma run_among_fulfilled (f1 f2 f3 f4 : World → World)
    (more : list (World → World)) w :
  let v := f4 (f3 (f2 (f1 (renamed audioPath w)))) in
  let pushed :=
    with_queues
      (enqueue (JS.Str (slot_name X)) (payload (clock v)) (streamQueues v)) v in
  run_among P (f1 :: f2 :: f3 :: f4 :: more) (post_interpret req w)
  = if decide (webm ∈ files v)
    then {| response := reply;
            world := with_files (files v ∖ {[webm]}) pushed;
            calls := [transcription; completion; speech; ArrayBuffer] |}
    else {| response := failed;
            world := pushed;
            calls := [transcription; completion; speech; ArrayBuffer] |}.
Proof.
  intros v pushed. unfold post_interpret, interpret.
  cbn [file sourceLang targetLang mode submission].
  rewrite (truthy_nonempty _ Hlang), (truthy_nonempty _ Htarget).
  rewrite includes_slot_name. cbn [negb orb].
  rewrite (renameSync_uploaded req w audioPath eq_refl).
  cbn [run_among hd tail JS.to_property_key].
  rewrite Htranscription. cbn [run_among hd tail].
  change (settle P (ChatCompletion "gpt-4" _)) with (settle P completion).
  rewrite Hcompletion. cbn [run_among hd tail].
  rewrite Hspeech. cbn [run_among hd tail].
  rewrite Hbody.
  fold v. fold pushed. unfold unlinkSync.
  change (files pushed) with (files v).
  destruct (decide (webm ∈ files v)); reflexivity.
Qed.

Lemma run_among_idle4 (t : Task) :
  run_among P [λ w, w; λ w, w; λ w, w; λ w, w] t = run P t.
Proof.
  rewrite <- run_among_nil.
  rewrite <- (run_among_idle P [] t).
  rewrite <- (run_among_idle P ([] ++ [λ w, w]) t).
  rewrite <- (run_among_idle P (([] ++ [λ w, w]) ++ [λ w, w]) t).
  rewrite <- (run_among_idle P ((([] ++ [λ w, w]) ++ [λ w, w]) ++ [λ w, w]) t).
  reflexivity.
Qed.

Lemma webm_renamed w : webm ∈ files (renamed audioPath w).
Proof. cbn. apply elem_of_union_l, elem_of_singleton. reflexivity. Qed.

(** X2: a submission whose four calls are fulfilled, run on its own, is
    answered 200 with the transcript, the interpreted text and the base64
    of the synthesized bytes; it makes the four calls in order (Whisper on
    the renamed upload with the language up to the first dash, GPT-4 on the
    translation prompt, TTS with the resolved voice, the body read), pushes
    the payload stamped with the clock onto the queue the mode selects, and
    leaves neither the upload nor its [.webm] rename behind. *)
Theorem interpret_success w :
  run P (post_interpret req w)
  = {| response :=
         {| status := 200;
            body := InterpretJson transcript interpretedText
                      (JS.base64 audioBuffer) |};
       world :=
         with_files ((files w ∖ {[audioPath]}) ∖ {[webm]})
           (with_queues
              (enqueue (JS.Str (slot_name X)) (payload (clock w))
                 (streamQueues w)) w);
       calls := [transcription; completion; speech; ArrayBuffer] |}.
Proof.
  rewrite <- run_among_idle4.
  rewrite (run_among_fulfilled (λ w, w) (λ w, w) (λ w, w) (λ w, w) [] w).
  cbv beta zeta.
  destruct (decide (webm ∈ files (renamed audioPath w))) as [_ | Hgone];
    [| destruct (Hgone (webm_renamed w))].
  f_equal. unfold renamed, with_files, with_queues.
  cbn [files streamQueues clock]. rewrite stored_then_unlinked. reflexivity.
Qed.


(** X4: when the temporary file is gone by the time the last call settles,
    [unlinkSync] throws after the push: the submission is answered 500 with
    the generic error although its payload is already in the recipient's
    queue. *)
Theorem pushed_before_failing (f1 f2 f3 f4 : World → World) w :
  let v := f4 (f3 (f2 (f1 (renamed audioPath w)))) in
  webm ∉ files v →
  run_among P [f1; f2; f3; f4] (post_interpret req w)
  = {| response := {| status := 500; body := ErrorJson "Failed to interpret." |};
       world :=
         with_queues
           (enqueue (JS.Str (slot_name X)) (payload (clock v))
              (streamQueues v)) v;
       calls := [transcription; completion; speech; ArrayBuffer] |}.
Proof.
  intros v Hgone. rewrite (run_among_fulfilled f1 f2 f3 f4 [] w).
  cbv beta zeta. fold v.
  destruct (decide (webm ∈ files v)); [contradiction | reflexivity].
Qed.

End Fulfilled.

Lemma fulfilling_fulfils (c : Call) : settle fulfilling c ≠ Rejected.
Proof. destruct c; discriminate. Qed.

Lemma interpret_success_witness :
  run fulfilling (post_interpret (submission "uploads/9c1e" "en-US" "fr-FR" SlotA)
                    (initial 5))
  = {| response :=
         {| status := 200;
            body := InterpretJson "Good morning" "Bonjour" "TWE=" |};
       world :=
         with_queues
           {| A := [];
              B := [{| audioBase64 := "TWE="; text := "Bonjour";
                       timestamp := 5 |}] |}
           (with_files ((∅ ∖ {["uploads/9c1e"]}) ∖ {["uploads/9c1e.webm"]})
              (initial 5));
       calls := [Transcription "uploads/9c1e.webm" "whisper-1" "en";
                 ChatCompletion "gpt-4"
                   (translationPrompt "fr-FR" "Good morning");
                 Speech "tts-1" (JS.VString "onyx") "Bonjour";
                 ArrayBuffer] |}.
Proof.
  apply (interpret_success fulfilling "uploads/9c1e" "en-US" "fr-FR" SlotA
           "Good morning" "Bonjour" ["M"%byte; "a"%byte]);
    (discriminate || reflexivity).
Defined.


Lemma pushed_before_failing_witness :
  let remove := λ w, with_files ∅ w in
  let o := run_among fulfilling [(λ w, w); (λ w, w); remove; (λ w, w)]
             (post_interpret (submission "uploads/9c1e" "en-US" "fr-FR" SlotA)
                (initial 5)) in
  status (response o) = 500
  ∧ streamQueues (world o)
    = {| A := [];
         B := [{| audioBase64 := "TWE="; text := "Bonjour"; timestamp := 5 |}] |}.
Proof.
  intros remove o. subst o.
  rewrite (pushed_before_failing fulfilling "uploads/9c1e" "en-US" "fr-FR"
             SlotA "Good morning" "Bonjour" ["M"%byte; "a"%byte]);
    try (discriminate || reflexivity).
  split; reflexivity.
Defined.

(** *** Outcomes by status *)

Lemma passes_validation_file req :
  passes_validation req = true → ∃ audioPath, file req = Some audioPath.
Proof.
  unfold passes_validation. destruct (file req) as [audioPath |];
    [eauto | discriminate].
Qed.

(** An accepted request run on its own either fails, leaving the world of
    its first suspension, or is answered 200 with its files cleaned up. *)
Lemma run_accepted P req w audioPath :
  file req = Some audioPath →
  passes_validation req = true →
  let o := run P (post_interpret req w) in
  (response o = failed ∧ world o = renamed audioPath w)
  ∨ (status (response o) = 200
     ∧ files (world o) = (files w ∖ {[audioPath]}) ∖ {[audioPath +:+ ".webm"]}
     ∧ clock (world o) = clock w).
Proof.
  intros Hfile Hguard. unfold passes_validation in Hguard.
  unfold post_interpret, interpret.
  pose proof (renameSync_uploaded req w audioPath Hfile) as Hrename.
  rewrite Hfile in Hguard |- *.
  apply andb_prop in Hguard as [Hguard Hmode].
  apply andb_prop in Hguard as [Hsrc Htgt].
  rewrite Hsrc, Htgt, Hmode. cbn [negb orb]. rewrite Hrename.
  destruct (sourceLang req) as [| lang | key]; [discriminate | | left; cbn; auto].
  cbn [run]. destruct (settle P (Transcription _ _ _)) as [| transcript];
    [left; cbn; auto |].
  destruct (JS.to_property_key (targetLang req)) as [target |];
    [| left; cbn; auto].
  cbn [run]. destruct (settle P (ChatCompletion _ _)) as [| interpretedText];
    [left; cbn; auto |].
  cbn [run]. destruct (settle P (Speech _ _ _)) as [| mp3];
    [left; cbn; auto |].
  cbn [run]. destruct (settle P ArrayBuffer) as [| audioBuffer];
    [left; cbn; auto |].
  rewrite unlinkSync_present
    by (cbn; apply elem_of_union_l, elem_of_singleton; reflexivity).
  right. cbn. rewrite stored_then_unlinked. auto.
Qed.

Lemma app_singleton_ne {T : Type} (l : list T) (x : T) : l ++ [x] ≠ l.
Proof.
  intros Heq. apply (f_equal length) in Heq.
  rewrite length_app in Heq. cbn in Heq. lia.
Qed.

Lemma enqueue_changes (m : JS.field) (item : Payload) (q : StreamQueues) :
  JS.includes ["A"; "B"] m = true → enqueue m item q ≠ q.
Proof.
  intros Hm. apply includes_modes in Hm as [-> | ->]; cbn; intros Heq.
  - apply (f_equal B) in Heq. cbn in Heq. exact (app_singleton_ne _ _ Heq).
  - apply (f_equal A) in Heq. cbn in Heq. exact (app_singleton_ne _ _ Heq).
Qed.

Lemma passes_validation_mode req :
  passes_validation req = true → JS.includes ["A"; "B"] (mode req) = true.
Proof.
  unfold passes_validation. destruct (file req); [| discriminate].
  intros Hguard. apply andb_prop in Hguard as [_ Hmode]. exact Hmode.
Qed.

(** X5: a request run on its own changes the delivery queues exactly when
    it is answered 200; every other answer, whatever went wrong and
    wherever, leaves both queues as they were. *)
Theorem queues_change_iff_ok P req w :
  let o := run P (post_interpret req w) in
  streamQueues (world o) ≠ streamQueues w ↔ status (response o) = 200.
Proof.
  intros o. subst o.
  destruct (run_post_interpret P req w)
    as [(_ & H400 & _ & Hq) | [(_ & Hres & Hq)
        | (Hguard & _ & transcript & item & Hres & Hq)]].
  - rewrite H400, Hq. split; [intros Hne; destruct (Hne eq_refl) | discriminate].
  - rewrite Hres, Hq. split; [intros Hne; destruct (Hne eq_refl) | discriminate].
  - rewrite Hres, Hq. split; [reflexivity |]. intros _.
    apply enqueue_changes, passes_validation_mode, Hguard.
Qed.

(** X6: an answer 400 is always a validation rejection: the audio part, a
    language or a valid mode is missing; no provider call was made, and the
    world is the one the request found with its own upload unlinked. *)
Theorem bad_request_is_rejection P req w :
  let o := run P (post_interpret req w) in
  status (response o) = 400 →
  (file req = None
   ∨ JS.truthy (sourceLang req) = false
   ∨ JS.truthy (targetLang req) = false
   ∨ JS.includes ["A"; "B"] (mode req) = false)
  ∧ calls o = []
  ∧ world o = without_upload req w.
Proof.
  intros o Hstatus. subst o.
  destruct (passes_validation req) eqn:Hguard.
  - destruct (passes_validation_file req Hguard) as (audioPath & Hfile).
    destruct (run_accepted P req w audioPath Hfile Hguard)
      as [(Hres & _) | (H200 & _)].
    + rewrite Hres in Hstatus. discriminate.
    + rewrite H200 in Hstatus. discriminate.
  - destruct (rejected_outcome P req w Hguard) as (_ & Hcalls & Hworld).
    split; [| auto].
    unfold passes_validation in Hguard.
    destruct (file req); [| auto].
    destruct (JS.truthy (sourceLang req)); [| auto].
    destruct (JS.truthy (targetLang req)); [| auto].
    cbn in Hguard. auto.
Qed.

Lemma bad_request_is_rejection_witness :
  let req := {| file := Some "uploads/9c1e"; sourceLang := JS.Str "";
                targetLang := JS.Str "fr-FR"; mode := JS.Str "A" |} in
  let w := with_files {["uploads/77aa"]} (initial 0) in
  let o := run speechless (post_interpret req w) in
  status (response o) = 400 ∧ calls o = [] ∧ world o = without_upload req w.
Proof.
  intros req w o.
  assert (status (response o) = 400) as Hstatus by (vm_compute; reflexivity).
  split; [exact Hstatus |].
  apply (bad_request_is_rejection speechless req w Hstatus).
Defined.

(** X7: an answer 500 to a request to [POST /interpret] run on its own
    has one of two origins.  Either [upload.single("audio")] refused the
    form: the answer is Express's error page, the handler was never
    entered, no call was made and the queues are as they were.  Or the
    handler's [catch] block answered: then the uploaded file is left behind,
    since the block does not unlink it; it stays in [uploads/] under its
    [.webm] name, and nothing else in the world has changed. *)
Theorem failure_leaves_upload P form w :
  let o := run P (route_interpret form w) in
  status (response o) = 500 →
  (refuses form = true
   ∧ response o = {| status := 500; body := ErrorPage |}
   ∧ calls o = []
   ∧ streamQueues (world o) = streamQueues w)
  ∨ (refuses form = false
     ∧ response o
       = {| status := 500; body := ErrorJson "Failed to interpret." |}
     ∧ ∃ audioPath,
         file (handed form) = Some audioPath
         ∧ world o = renamed audioPath w
         ∧ audioPath +:+ ".webm" ∈ files (world o)).
Proof.
  intros o Hstatus. subst o.
  destruct (refuses form) eqn:Hrefuses.
  - left. destruct (route_refused P form w Hrefuses) as (Hres & Hcalls & Hq & _).
    auto.
  - right. rewrite (route_passed form w Hrefuses) in Hstatus |- *.
    split; [reflexivity |].
    destruct (passes_validation (handed form)) eqn:Hguard.
    + destruct (passes_validation_file _ Hguard) as (audioPath & Hfile).
      destruct (run_accepted P (handed form) w audioPath Hfile Hguard)
        as [(Hres & Hworld) | (H200 & _)].
      * split; [exact Hres |]. exists audioPath. rewrite Hworld.
        split; [exact Hfile |]. split; [reflexivity |].
        cbn. apply elem_of_union_l, elem_of_singleton. reflexivity.
      * rewrite H200 in Hstatus. discriminate.
    + destruct (rejected_outcome P (handed form) w Hguard) as (H400 & _).
      rewrite H400 in Hstatus. discriminate.
Qed.

Lemma failure_leaves_upload_witness :
  let sent := λ name,
    {| file_parts := [{| fieldname := name; stored_as := "uploads/9c1e" |}];
       parse_error := false;
       sent_sourceLang := JS.Str "en-US";
       sent_targetLang := JS.Str "fr-FR";
       sent_mode := JS.Str "A" |} in
  let caught := run speechless (route_interpret (sent "audio") (initial 0)) in
  let refused := run speechless (route_interpret (sent "file") (initial 0)) in
  (response caught = {| status := 500; body := ErrorJson "Failed to interpret." |}
   ∧ elements (files (world caught)) = ["uploads/9c1e.webm"])
  ∧ (response refused = {| status := 500; body := ErrorPage |}
     ∧ elements (files (world refused)) = []).
Proof.
  intros sent caught refused. subst caught refused. split.
  - destruct (failure_leaves_upload speechless (sent "audio") (initial 0))
      as [(Hrefuses & _) | (_ & Hres & audioPath & Hfile & Hworld & _)];
      [vm_compute; reflexivity | discriminate |].
    split; [exact Hres |]. injection Hfile as <-. rewrite Hworld.
    vm_compute. reflexivity.
  - destruct (failure_leaves_upload speechless (sent "file") (initial 0))
      as [(_ & Hres & _) | (Hrefuses & _)];
      [vm_compute; reflexivity | | discriminate].
    split; [exact Hres |]. vm_compute. reflexivity.
Defined.

(** X8: a [sourceLang] that arrives as an array or object passes
    validation, but [sourceLang.split] throws before the transcription
    call is built: the request is answered 500 without any provider call,
    the queues untouched and the upload left behind under its [.webm]
    name. *)
Theorem structured_sourceLang_fails P req w audioPath key :
  file req = Some audioPath →
  sourceLang req = JS.Nested key →
  JS.truthy (targetLang req) = true →
  JS.includes ["A"; "B"] (mode req) = true →
  run P (post_interpret req w)
  = {| response := {| status := 500; body := ErrorJson "Failed to interpret." |};
       world := renamed audioPath w;
       calls := [] |}.
Proof.
  intros Hfile Hsrc Htgt Hmode. unfold post_interpret, interpret.
  pose proof (renameSync_uploaded req w audioPath Hfile) as Hrename.
  rewrite Hfile, Hsrc, Htgt, Hmode. cbn [JS.truthy negb orb].
  rewrite Hrename. reflexivity.
Qed.

Lemma structured_sourceLang_fails_witness :
  let req := {| file := Some "uploads/9c1e";
                sourceLang := JS.Nested (Some "en-US,en-GB");
                targetLang := JS.Str "fr-FR"; mode := JS.Str "B" |} in
  run fulfilling (post_interpret req (initial 0))
  = {| response := failed; world := renamed "uploads/9c1e" (initial 0);
       calls := [] |}.
Proof.
  intros req.
  apply (structured_sourceLang_fails fulfilling req (initial 0) "uploads/9c1e"
           (Some "en-US,en-GB")); reflexivity.
Defined.

(** *** What the provider is asked *)

(** The second call of a submission whose transcription is fulfilled. *)
Lemma completion_call P w audioPath lang target X transcript :
  lang ≠ "" → target ≠ "" →
  settle P (Transcription (audioPath +:+ ".webm") "whisper-1"
              (JS.split "-" lang).1) = Fulfilled transcript →
  calls (run P (post_interpret (submission audioPath lang target X) w)) !! 1
  = Some (ChatCompletion "gpt-4" (translationPrompt target transcript)).
Proof.
  intros Hlang Htarget Htranscription. unfold post_interpret, interpret.
  cbn [file sourceLang targetLang mode submission].
  rewrite (truthy_nonempty _ Hlang), (truthy_nonempty _ Htarget).
  rewrite includes_slot_name. cbn [negb orb].
  rewrite (renameSync_uploaded (submission audioPath lang target X) w
             audioPath eq_refl).
  cbn [run JS.to_property_key]. rewrite Htranscription. reflexivity.
Qed.

(** X9: the translation prompt names the display name of a supported
    target language; a target language that is no key of [LANGUAGES] (and
    no property name of [Object.prototype]) is not refused: the model is
    asked to translate "to undefined". *)
Theorem prompt_names_display_or_undefined P w audioPath lang target X
    transcript :
  lang ≠ "" → target ≠ "" →
  settle P (Transcription (audioPath +:+ ".webm") "whisper-1"
              (JS.split "-" lang).1) = Fulfilled transcript →
  let o := run P (post_interpret (submission audioPath lang target X) w) in
  (∀ display,
     JS.own_property LANGUAGES target = Some display →
     calls o !! 1
     = Some (ChatCompletion "gpt-4"
               ("Translate this text to " +:+ display +:+ ":"
                  +:+ String "010" transcript)))
  ∧ (JS.own_property LANGUAGES target = None →
     existsb (String.eqb target) JS.object_prototype_names = false →
     calls o !! 1
     = Some (ChatCompletion "gpt-4"
               ("Translate this text to undefined:"
                  +:+ String "010" transcript))).
Proof.
  intros Hlang Htarget Htranscription o. subst o.
  rewrite (completion_call P w audioPath lang target X transcript
             Hlang Htarget Htranscription).
  unfold translationPrompt, JS.get. split.
  - intros display ->. reflexivity.
  - intros -> ->. reflexivity.
Qed.

Lemma prompt_names_display_or_undefined_witness :
  calls (run fulfilling
           (post_interpret (submission "uploads/9c1e" "en-US" "pl-PL" SlotA)
              (initial 0))) !! 1
  = Some (ChatCompletion "gpt-4"
            ("Translate this text to Polish:" +:+ String "010" "Good morning"))
  ∧ calls (run fulfilling
             (post_interpret (submission "uploads/9c1e" "en-US" "sw-KE" SlotA)
                (initial 0))) !! 1
    = Some (ChatCompletion "gpt-4"
              ("Translate this text to undefined:"
                 +:+ String "010" "Good morning")).
Proof.
  split.
  - exact (proj1 (prompt_names_display_or_undefined fulfilling (initial 0)
                    "uploads/9c1e" "en-US" "pl-PL" SlotA "Good morning"
                    ltac:(discriminate) ltac:(discriminate) eq_refl)
             "Polish" eq_refl).
  - exact (proj2 (prompt_names_display_or_undefined fulfilling (initial 0)
                    "uploads/9c1e" "en-US" "sw-KE" SlotA "Good morning"
                    ltac:(discriminate) ltac:(discriminate) eq_refl)
             eq_refl eq_refl).
Defined.

Lemma split_first (hint rest : string) :
  occurs "-" hint = false →
  rest = "" ∨ (∃ region, rest = String "-" region) →
  (JS.split "-" (hint +:+ rest)).1 = hint.
Proof.
  intros Hdash Hrest. induction hint as [| c hint IH].
  - destruct Hrest as [-> | (region & ->)]; [reflexivity |].
    change ("" +:+ String "-" region) with (String "-" region).
    cbn [JS.split]. destruct (JS.split "-" region). reflexivity.
  - cbn in Hdash. apply orb_false_elim in Hdash as [Hc Hdash].
    specialize (IH Hdash).
    change (String c hint +:+ rest) with (String c (hint +:+ rest)).
    cbn [JS.split].
    destruct (JS.split "-" (hint +:+ rest)) as [piece pieces].
    rewrite Hc. cbn in IH |- *. rewrite IH. reflexivity.
Qed.

(** X10: the language hint passed to Whisper is the source language code
    up to its first dash (the whole code when it has none, the empty string
    when it starts with a dash), the file is the renamed upload and the
    model [whisper-1]; this is the first call of every submission. *)
Theorem transcription_language_hint P w audioPath hint rest target X :
  occurs "-" hint = false →
  rest = "" ∨ (∃ region, rest = String "-" region) →
  hint +:+ rest ≠ "" → target ≠ "" →
  head (calls (run P (post_interpret
                        (submission audioPath (hint +:+ rest) target X) w)))
  = Some (Transcription (audioPath +:+ ".webm") "whisper-1" hint).
Proof.
  intros Hdash Hrest Hlang Htarget. unfold post_interpret, interpret.
  cbn [file sourceLang targetLang mode submission].
  rewrite (truthy_nonempty _ Hlang), (truthy_nonempty _ Htarget).
  rewrite includes_slot_name. cbn [negb orb].
  rewrite (renameSync_uploaded (submission audioPath (hint +:+ rest) target X)
             w audioPath eq_refl).
  cbn [run calls head]. rewrite (split_first hint rest Hdash Hrest).
  reflexivity.
Qed.

Lemma transcription_language_hint_witness :
  head (calls (run speechless
                 (post_interpret
                    (submission "uploads/9c1e" "cmn-Hans-CN" "fr-FR" SlotB)
                    (initial 0))))
  = Some (Transcription "uploads/9c1e.webm" "whisper-1" "cmn").
Proof.
  apply (transcription_language_hint speechless (initial 0) "uploads/9c1e"
           "cmn" "-Hans-CN" "fr-FR" SlotB);
    [reflexivity | right; eexists; reflexivity | discriminate | discriminate].
Defined.

(** X11: the provider calls of a request are made in pipeline order
    (transcription with [whisper-1], completion with [gpt-4], speech with
    [tts-1], then the body read), at most once each, and no call is made
    after a rejected one. *)
Theorem calls_in_order_until_rejection P req w :
  let o := run P (post_interpret req w) in
  (∃ path language prompt voice input,
     calls o `prefix_of`
       [Transcription path "whisper-1" language;
        ChatCompletion "gpt-4" prompt;
        Speech "tts-1" voice input;
        ArrayBuffer])
  ∧ ∀ pre c post,
      calls o = pre ++ c :: post → settle P c = Rejected → post = [].
Proof.
  intros o. subst o.
  destruct (passes_validation req) eqn:Hguard.
  - destruct (passes_validation_file req Hguard) as (audioPath & Hfile).
    unfold passes_validation in Hguard. unfold post_interpret, interpret.
    pose proof (renameSync_uploaded req w audioPath Hfile) as Hrename.
    rewrite Hfile in Hguard |- *.
    apply andb_prop in Hguard as [Hguard Hmode].
    apply andb_prop in Hguard as [Hsrc Htgt].
    rewrite Hsrc, Htgt, Hmode. cbn [negb orb]. rewrite Hrename.
    assert (∀ (known : list Call),
              (∀ c, c ∈ known → settle P c ≠ Rejected) →
              ∀ last_ pre c post,
                known ++ [last_] = pre ++ c :: post →
                settle P c = Rejected → post = []) as Hlast.
    { intros known Hknown last_ pre c post Heq Hrejected.
      destruct post as [| c' post] using rev_ind; [reflexivity |].
      rewrite app_comm_cons, app_assoc in Heq.
      apply app_inj_tail in Heq as [-> _].
      destruct (Hknown c); [| exact Hrejected].
      apply elem_of_app. right. apply list_elem_of_here. }
    assert (∀ pre c post, ([] : list Call) = pre ++ c :: post → post = [])
      as Hnil by (intros [| ? ?] ? ? ?; discriminate).
    destruct (sourceLang req) as [| lang | key]; [discriminate | |].
    2:{ cbn. split; [| intros pre c post Heq _; exact (Hnil _ _ _ Heq)].
        exists "", "", "", JS.VUndefined, "". apply prefix_nil. }
    cbn [run].
    destruct (settle P (Transcription _ _ _)) as [| transcript] eqn:E1.
    { cbn. split; [do 5 eexists; eexists; cbn; reflexivity |].
      apply (Hlast []). intros c Hc. by apply elem_of_nil in Hc. }
    destruct (JS.to_property_key (targetLang req)) as [target |].
    2:{ cbn. split; [do 5 eexists; eexists; cbn; reflexivity |].
        apply (Hlast []). intros c Hc. by apply elem_of_nil in Hc. }
    cbn [run].
    destruct (settle P (ChatCompletion _ _)) as [| interpretedText] eqn:E2.
    { cbn. split; [do 5 eexists; eexists; cbn; reflexivity |].
      apply (Hlast [_]). intros c Hc.
      apply elem_of_cons in Hc as [-> | Hc]; [congruence |].
      by apply elem_of_nil in Hc. }
    cbn [run].
    destruct (settle P (Speech _ _ _)) as [| mp3] eqn:E3.
    { cbn. split; [do 5 eexists; eexists; cbn; reflexivity |].
      apply (Hlast [_; _]). intros c Hc.
      repeat (apply elem_of_cons in Hc as [-> | Hc]; [congruence |]).
      by apply elem_of_nil in Hc. }
    cbn [run].
    assert (∀ res w', calls (run P (Respond res w')) = []) as Hdone
      by reflexivity.
    destruct (settle P ArrayBuffer) as [| audioBuffer] eqn:E4.
    { cbn. split; [do 5 eexists; eexists; cbn; reflexivity |].
      apply (Hlast [_; _; _]). intros c Hc.
      repeat (apply elem_of_cons in Hc as [-> | Hc]; [congruence |]).
      by apply elem_of_nil in Hc. }
    destruct (unlinkSync _ _); cbn;
      (split; [do 5 eexists; eexists; cbn; reflexivity |]);
      apply (Hlast [_; _; _]); intros c Hc;
      repeat (apply elem_of_cons in Hc as [-> | Hc]; [congruence |]);
      by apply elem_of_nil in Hc.
  - destruct (rejected_outcome P req w Hguard) as (_ & -> & _).
    split.
    + exists "", "", "", JS.VUndefined, "". apply prefix_nil.
    + intros [| ? ?] ? ? ?; discriminate.
  Unshelve. all: first [exact EmptyString | exact JS.VUndefined].
Qed.

(** *** Two submissions in flight *)





End Pipeline.

(** ** Draining a queue *)

Section Draining.

Implicit Types (X : Slot) (w : World).

(** X12: [n] successive polls of a slot answer 200 with the three fields
    of its first [n] queued items, in order, then 200 with the all-null
    body for every poll beyond the queue's length; they leave in the queue
    the items after the first [n], and the other slot's queue untouched.  A
    poll is thus no idempotent read: each one consumes what it answers. *)
Theorem polls_drain X n w :
  let (answers, w') := polls (slot_name X) n w in
  answers
  = map (λ item,
           {| status := 200;
              body := StreamJson (Some (audioBase64 item)) (Some (text item))
                        (Some (timestamp item)) |})
      (take n (queue X (streamQueues w)))
    ++ replicate (n - length (queue X (streamQueues w)))
         {| status := 200; body := StreamJson None None None |}
  ∧ queue X (streamQueues w') = drop n (queue X (streamQueues w))
  ∧ queue (opposite X) (streamQueues w')
    = queue (opposite X) (streamQueues w).
Proof.
  revert w. induction n as [| n IH]; intros w.
  - cbn. auto.
  - cbn [polls].
    destruct (queue X (streamQueues w)) as [| item rest] eqn:Hq.
    + rewrite (stream_nothing _ _ Hq).
      specialize (IH w). rewrite Hq in IH.
      destruct (polls (slot_name X) n w) as [answers w'].
      destruct IH as (-> & Hleft & Hother).
      rewrite take_nil, drop_nil, Nat.sub_0_r in *. cbn. auto.
    + rewrite (stream_shift _ _ _ _ Hq).
      specialize (IH (with_queues
                        (set_queue (slot_name X) rest (streamQueues w)) w)).
      rewrite !queue_with_queues, queue_set_queue,
        queue_set_queue_opposite in IH.
      destruct (polls (slot_name X) n _) as [answers w'].
      destruct IH as (-> & Hleft & Hother). cbn. auto.
Qed.

Lemma polls_drain_witness :
  let first := {| audioBase64 := "TQ=="; text := "Bonjour"; timestamp := 7 |} in
  let second := {| audioBase64 := "TWE="; text := "Merci"; timestamp := 9 |} in
  let w := with_queues {| A := [second]; B := [first; second] |} (initial 0) in
  (polls "B" 3 w).1
  = [{| status := 200;
        body := StreamJson (Some "TQ==") (Some "Bonjour") (Some 7%Z) |};
     {| status := 200;
        body := StreamJson (Some "TWE=") (Some "Merci") (Some 9%Z) |};
     {| status := 200; body := StreamJson None None None |}]
  ∧ streamQueues (polls "B" 3 w).2 = {| A := [second]; B := [] |}
  ∧ (polls "B" 1 w).1
    = [{| status := 200;
          body := StreamJson (Some "TQ==") (Some "Bonjour") (Some 7%Z) |}]
  ∧ streamQueues (polls "B" 1 w).2 = {| A := [second]; B := [second] |}.
Proof.
  intros first second w.
  pose proof (polls_drain SlotB 3 w) as H3.
  pose proof (polls_drain SlotB 1 w) as H1.
  change (slot_name SlotB) with "B" in H3, H1.
  destruct (polls "B" 3 w) as [answers3 w3].
  destruct (polls "B" 1 w) as [answers1 w1].
  destruct H3 as (-> & HB3 & HA3). destruct H1 as (-> & HB1 & HA1).
  cbn [fst snd]. destruct (streamQueues w3) as [a3 b3].
  destruct (streamQueues w1) as [a1 b1].
  cbn in HB3, HA3, HB1, HA1. subst. repeat split.
Defined.

End Draining.

(** ** The voice of a language *)

Section Voices.

Lemma not_prototype_name (lang : string) :
  lang ∉ JS.object_prototype_names →
  existsb (String.eqb lang) JS.object_prototype_names = false.
Proof.
  intros Hnot. destruct (existsb _ _) eqn:Hex; [| reflexivity].
  apply existsb_exists in Hex as (name & Hin & Heq).
  apply String.eqb_eq in Heq as <-.
  destruct Hnot. apply list_elem_of_In. exact Hin.
Qed.

(** X1: for every language code that is no property name of
    [Object.prototype], the resolver returns a voice name: the entry of the
    voice table when the code has one ([en-US], [fr-FR], [es-ES], [de-DE]),
    and the default ["nova"] otherwise; no entry of the table is masked by
    the fallback. *)
Theorem voice_listed_or_default (lang : string) :
  lang ∉ JS.object_prototype_names →
  getVoiceForLang lang
  = JS.VString (default "nova" (JS.own_property femaleVoices lang))
  ∧ (JS.own_property femaleVoices lang = None → getVoiceForLang lang = JS.VString "nova").
Proof.
  intros Hnot. apply not_prototype_name in Hnot.
  unfold getVoiceForLang, JS.get. rewrite Hnot.
  cbn [JS.own_property femaleVoices].
  repeat (destruct (String.eqb _ lang); [split; [reflexivity | discriminate] |]).
  split; reflexivity.
Qed.

Lemma voice_listed_or_default_witness :
  getVoiceForLang "de-DE" = JS.VString "echo"
  ∧ getVoiceForLang "tr-TR" = JS.VString "nova".
Proof.
  assert (∀ lang, existsb (String.eqb lang) JS.object_prototype_names = false →
                  lang ∉ JS.object_prototype_names) as Hnot.
  { intros lang Hex Hin. apply list_elem_of_In in Hin.
    assert (existsb (String.eqb lang) JS.object_prototype_names = true) as Htrue
      by (apply existsb_exists; exists lang; split;
          [exact Hin | apply String.eqb_refl]).
    congruence. }
  split.
  - exact (proj1 (voice_listed_or_default "de-DE" (Hnot "de-DE" eq_refl))).
  - exact (proj2 (voice_listed_or_default "tr-TR" (Hnot "tr-TR" eq_refl)) eq_refl).
Defined.

End Voices.
